(** * page_finder: the Levenshtein engine of [edit_distance.c]

    A shallow embedding of the C function [levenshtein] and the proofs of
    its specification. The embedding starts where [PyArg_ParseTuple] has
    handed over the two C strings [s1] and [s2], and ends with the [int]
    given to [Py_BuildValue].

    - C [int] is a 32-bit two's complement integer, modelled as [Z] with the
      wrap-around written out ([int_wrap]); the [size_t] that [strlen]
      returns is converted to [int] by the same wrap-around.
    - A C string is modelled by the list of bytes stored at the pointer; the
      terminating NUL is implicit at the end of the list, and [strlen] stops
      at the first NUL byte it meets, as the C function does.
    - The two [calloc]ed buffers are lists of [Z]; every read and write is
      bounds-checked and an access outside the buffer (undefined behaviour in
      C) makes the whole computation return [None].
    - The [for] loops are run with a fuel that the proofs show sufficient. *)

From Stdlib Require Import ZArith Lia.
From Stdlib Require Import Strings.Byte Strings.String.
From stdpp Require Import base tactics option list numbers.

Local Open Scope Z_scope.

(** ** Machine integers *)

Definition INT_MAX : Z := 2 ^ 31 - 1.
Definition INT_MIN : Z := - 2 ^ 31.

(** Conversion of a mathematical integer to [int] (modulo 2^32). *)
Definition int_wrap (z : Z) : Z := (z + 2 ^ 31) mod 2 ^ 32 - 2 ^ 31.

(** [#define MIN(a,b) (((a)<(b))?(a):(b))] *)
Definition MIN (a b : Z) : Z := if a <? b then a else b.

(** ** C strings *)

Definition NUL : byte := x00.

(** [strlen]: the number of bytes before the first NUL. *)
Fixpoint strlen (s : list byte) : Z :=
  match s with
  | [] => 0
  | c :: s' => if Byte.eqb c NUL then 0 else 1 + strlen s'
  end.

(** The bytes a C function sees as the string: those before the first NUL. *)
Fixpoint c_str (s : list byte) : list byte :=
  match s with
  | [] => []
  | c :: s' => if Byte.eqb c NUL then [] else c :: c_str s'
  end.

(** [s[k]] on the buffer of a string: the stored bytes followed by the
    terminator. *)
Definition char_at (s : list byte) (k : Z) : option byte :=
  if k <? 0 then None else (s ++ [NUL]) !! Z.to_nat k.

(** ** Integer buffers *)

(** [calloc(n, sizeof(int))]: [n] zeroed cells; a non-positive [n] gives no
    usable cell. The allocation of a positive number of cells is taken to
    succeed: the function does not test the pointer, and memory exhaustion is
    outside the specification. *)
Definition calloc (n : Z) : list Z := replicate (Z.to_nat n) 0.

(** [a[k]] as an rvalue. *)
Definition read (a : list Z) (k : Z) : option Z :=
  if k <? 0 then None else a !! Z.to_nat k.

(** [a[k] = v]. *)
Definition write (a : list Z) (k : Z) (v : Z) : option (list Z) :=
  if (0 <=? k) && (k <? Z.of_nat (length a)) then Some (<[Z.to_nat k := v]> a)
  else None.

(** ** Loops *)

(** [for (i = i0; i < hi; ++i) body], on a state of type [St]. *)
Fixpoint for_loop {St : Type} (fuel : nat) (i hi : Z)
    (body : Z → St → option St) (st : St) : option St :=
  if i <? hi then
    match fuel with
    | O => None
    | S fuel' => st' ← body i st; for_loop fuel' (int_wrap (i + 1)) hi body st'
    end
  else Some st.

(** ** The function [levenshtein] *)

(** The two row pointers [x] and [y]. *)
Record rows : Type := Rows { row_x : list Z; row_y : list Z }.

(** The statement of the inner loop, for column [j]; [xr] is the row [x]
    points to, the state is the row [y] points to. *)
Definition inner_body (c1 : byte) (s2 : list byte) (xr : list Z)
    (j : Z) (yr : list Z) : option (list Z) :=
  c2 ← char_at s2 (j - 1);
  if Byte.eqb c1 c2 then
    d ← read xr (j - 1);
    write yr j d
  else
    u ← read xr j;
    l ← read yr (j - 1);
    d ← read xr (j - 1);
    write yr j (MIN (int_wrap (u + 1))
                    (MIN (int_wrap (l + 1)) (int_wrap (d + 1)))).

(** The body of the outer loop, for row [i], ending with the pointer swap. *)
Definition outer_body (s1 s2 : list byte) (n2 : Z) (i : Z) (st : rows)
    : option rows :=
  c1 ← char_at s1 (i - 1);
  y0 ← write (row_y st) 0 i;
  y' ← for_loop (Z.to_nat n2) 1 n2 (inner_body c1 s2 (row_x st)) y0;
  Some (Rows y' (row_x st)).

(** The buffers before the outer loop: [x] holds 0, 1, ..., [n2 - 1] and [y]
    is zeroed. *)
Definition init_rows (n2 : Z) : option rows :=
  x0 ← for_loop (Z.to_nat n2) 0 n2 (λ i xr, write xr i i) (calloc n2);
  Some (Rows x0 (calloc n2)).

Definition levenshtein (s1 s2 : list byte) : option Z :=
  let n1 := int_wrap (strlen s1 + 1) in
  let n2 := int_wrap (strlen s2 + 1) in
  st0 ← init_rows n2;
  st ← for_loop (Z.to_nat n1) 1 n1 (outer_body s1 s2 n2) st0;
  read (row_x st) (n2 - 1).

(** The buffers after [k] rounds of the outer loop. *)
Fixpoint rows_after (s1 s2 : list byte) (k : nat) : option rows :=
  match k with
  | O => init_rows (int_wrap (strlen s2 + 1))
  | S k' =>
      st ← rows_after s1 s2 k';
      outer_body s1 s2 (int_wrap (strlen s2 + 1)) (Z.of_nat k) st
  end.

(** Byte strings of the examples. *)
Definition bytes (s : string) : list byte := list_byte_of_string s.

#[global] Instance byte_eq_dec : EqDecision byte := Byte.byte_eq_dec.

(** Inputs whose length, with the terminator, is representable as an [int]. *)
Definition fits_int (s : list byte) : Prop := strlen s + 1 <= INT_MAX.

(** Strings without an embedded NUL: a C string is exactly its stored
    bytes. *)
Definition nul_free (s : list byte) : bool :=
  forallb (λ c, negb (Byte.eqb c NUL)) s.

(** ** The specification *)

Section edit_distance.
Context {A : Type} `{EqDecision A}.
Local Open Scope nat_scope.

Definition min3 (u l d : nat) : nat := Nat.min u (Nat.min l d).

(** The full-table recurrence: [table s1 s2 i j] is the entry of row [i]
    and column [j], the distance between the prefixes of lengths [i] and
    [j]. *)
Fixpoint table (s1 s2 : list A) (i j : nat) {struct i} : nat :=
  match i with
  | O => j
  | S i' =>
      (fix row (j : nat) : nat :=
         match j with
         | O => i
         | S j' =>
             if decide (s1 !! i' = s2 !! j') then table s1 s2 i' j'
             else 1 + min3 (table s1 s2 i' j) (row j') (table s1 s2 i' j')
         end) j
  end.

(** Row [i] of the full table. *)
Definition table_row (s1 s2 : list A) (i : nat) : list nat :=
  table s1 s2 i <$> seq 0 (S (length s2)).

(** The two-row algorithm as the specification words it, on unbounded
    naturals. *)
Definition spec_cell (s1 s2 : list A) (i j : nat)
    (previous current : list nat) : nat :=
  if decide (s1 !! (i - 1) = s2 !! (j - 1)) then previous !!! (j - 1)
  else 1 + min3 (previous !!! j) (current !!! (j - 1)) (previous !!! (j - 1)).

Definition spec_row (s1 s2 : list A) (i : nat)
    (previous current : list nat) : list nat :=
  foldl (λ cur j, <[j := spec_cell s1 s2 i j previous cur]> cur)
        (<[0 := i]> current) (seq 1 (length s2)).

(** The pair (previous, current) after the outer iterations 1, ..., [k]:
    each iteration fills [current] and then swaps the two roles. *)
Definition spec_rows (s1 s2 : list A) (k : nat) : list nat * list nat :=
  foldl (λ st i, (spec_row s1 s2 i st.1 st.2, st.1))
        (seq 0 (S (length s2)), replicate (S (length s2)) 0)
        (seq 1 k).

Definition two_row_dp (s1 s2 : list A) : nat :=
  (spec_rows s1 s2 (length s1)).1 !!! length s2.

(** The same recurrence by recursion on the sequences themselves. *)
Fixpoint lev (a b : list A) {struct a} : nat :=
  match a with
  | [] => length b
  | x :: a' =>
      (fix lev_a (b : list A) : nat :=
         match b with
         | [] => length a
         | y :: b' =>
             if decide (x = y) then lev a' b'
             else 1 + min3 (lev a' b) (lev_a b') (lev a' b')
         end) b
  end.

(** One edit operation on a sequence. *)
Inductive edit1 : list A → list A → Prop :=
| edit_insert l x r : edit1 (l ++ r) (l ++ x :: r)
| edit_delete l x r : edit1 (l ++ x :: r) (l ++ r)
| edit_substitute l x y r : x ≠ y → edit1 (l ++ x :: r) (l ++ y :: r).

(** [edits n a b]: [n] successive edit operations transform [a] into
    [b]. *)
Inductive edits : nat → list A → list A → Prop :=
| edits_O a : edits 0 a a
| edits_S n a b c : edit1 a b → edits n b c → edits (S n) a c.

(** [d] is the Levenshtein distance from [a] to [b]: the least number of
    edit operations that transform [a] into [b]. *)
Definition edit_distance (a b : list A) (d : nat) : Prop :=
  edits d a b ∧ ∀ n, edits n a b → d ≤ n.
End edit_distance.

Arguments table : simpl never.
Arguments lev : simpl never.

(** Row [i] of the full table of two C strings, as a buffer stores it. *)
Definition zrow (s1 s2 : list byte) (i : nat) : list Z :=
  Z.of_nat <$> table_row (c_str s1) (c_str s2) i.

(** The number of positions at which two sequences differ (up to the length
    of the shorter one). *)
Fixpoint hamming {A : Type} `{EqDecision A} (a b : list A) : nat :=
  match a, b with
  | x :: a', y :: b' => (if decide (x = y) then 0 else 1) + hamming a' b'
  | _, _ => 0
  end%nat.

(** No byte of [a] occurs in [b]. *)
Definition no_common (a b : list byte) : bool :=
  forallb (λ c, negb (existsb (Byte.eqb c) b)) a.

(** [a] is what remains of [b] after deleting some of its bytes. *)
Fixpoint subseqb (a b : list byte) : bool :=
  match b with
  | [] => match a with [] => true | _ :: _ => false end
  | y :: b' =>
      match a with
      | [] => true
      | x :: a' => if Byte.eqb x y then subseqb a' b' else subseqb a b'
      end
  end.

(** * Properties of the recurrence *)

Section lev_facts.
Context {A : Type} `{EqDecision A}.
Implicit Types a b c l r : list A.
Local Open Scope nat_scope.

Lemma lev_nil_l b : lev [] b = length b.
Proof. reflexivity. Qed.

Lemma lev_nil_r a : lev a [] = length a.
Proof. by destruct a. Qed.

Lemma lev_cons x a y b :
  lev (x :: a) (y :: b) =
    if decide (x = y) then lev a b
    else S (min3 (lev a (y :: b)) (lev (x :: a) b) (lev a b)).
Proof. reflexivity. Qed.

Lemma lev_sym a b : lev a b = lev b a.
Proof.
  revert b. induction a as [|x a IHa]; intros b.
  - by rewrite lev_nil_l, lev_nil_r.
  - induction b as [|y b IHb]; [by rewrite lev_nil_l, lev_nil_r|].
    rewrite !lev_cons, IHb, !IHa. unfold min3.
    repeat case_decide; subst; try done. lia.
Qed.

Lemma lev_refl a : lev a a = 0.
Proof.
  induction a as [|x a IH]; [done|].
  rewrite lev_cons. by case_decide.
Qed.

(** Dropping the head of the second sequence costs at most one. *)
Lemma lev_drop_r a : ∀ b y, lev a b ≤ S (lev a (y :: b)).
Proof.
  induction a as [|x a IH]; intros b y.
  - rewrite !lev_nil_l. simpl. lia.
  - assert (Hadd : ∀ b', lev (x :: a) b' ≤ S (lev a b')).
    { intros [|z b']; [rewrite !lev_nil_r; simpl; lia|].
      rewrite lev_cons. case_decide.
      - apply IH.
      - unfold min3. lia. }
    rewrite lev_cons. case_decide.
    + apply Hadd.
    + specialize (Hadd b). specialize (IH b y). unfold min3. lia.
Qed.

Lemma lev_add_l x a b : lev (x :: a) b ≤ S (lev a b).
Proof.
  destruct b as [|z b]; [rewrite !lev_nil_r; simpl; lia|].
  rewrite lev_cons. case_decide; [apply lev_drop_r|unfold min3; lia].
Qed.

Lemma lev_drop_l x a b : lev a b ≤ S (lev (x :: a) b).
Proof. rewrite (lev_sym a), (lev_sym (x :: a)). apply lev_drop_r. Qed.

Lemma lev_subst_l x y a b : lev (y :: a) b ≤ S (lev (x :: a) b).
Proof.
  destruct b as [|z b]; [rewrite !lev_nil_r; simpl; lia|].
  pose proof (lev_drop_r a b z). pose proof (lev_drop_l x a b).
  rewrite !lev_cons. unfold min3. repeat case_decide; lia.
Qed.

(** A bound between two sequences survives a common head. *)
Lemma lev_cons_mono z k b c :
  (∀ a, lev b a ≤ k + lev c a) → ∀ a, lev (z :: b) a ≤ k + lev (z :: c) a.
Proof.
  intros Hbc a. induction a as [|w a IH].
  - specialize (Hbc []). rewrite !lev_nil_r in *. simpl. lia.
  - rewrite !lev_cons. case_decide; [apply Hbc|].
    pose proof (Hbc (w :: a)). pose proof (Hbc a). unfold min3. lia.
Qed.

Lemma edit1_sym a b : edit1 a b → edit1 b a.
Proof.
  destruct 1; [apply edit_delete|apply edit_insert|].
  by apply edit_substitute.
Qed.

Lemma edit1_cons x a b : edit1 a b → edit1 (x :: a) (x :: b).
Proof.
  destruct 1 as [l y r|l y r|l y z r Hne].
  - apply (edit_insert (x :: l)).
  - apply (edit_delete (x :: l)).
  - by apply (edit_substitute (x :: l)).
Qed.

Lemma edit1_lev b c : edit1 b c → ∀ a, lev c a ≤ 1 + lev b a.
Proof.
  destruct 1 as [l x r|l x r|l x y r Hne]; induction l as [|z l IH];
    simpl; try (by apply (lev_cons_mono z 1)); intros a.
  - apply lev_add_l.
  - apply lev_drop_l.
  - apply lev_subst_l.
Qed.

Lemma edits_lev n a b : edits n a b → lev a b ≤ n.
Proof.
  induction 1 as [a|n a b c Hab Hbc IH]; [by rewrite lev_refl|].
  pose proof (edit1_lev _ _ (edit1_sym _ _ Hab) c). lia.
Qed.

Lemma edits_cons x n a b : edits n a b → edits n (x :: a) (x :: b).
Proof.
  induction 1 as [a|n a b c Hab Hbc IH]; [constructor|].
  eapply edits_S; [by apply edit1_cons|done].
Qed.

Lemma edits_trans n m a b c : edits n a b → edits m b c → edits (n + m) a c.
Proof.
  induction 1 as [a|n a b' b Hab Hbc IH]; intros Hc; [done|].
  simpl. eapply edits_S; eauto.
Qed.

Lemma edits_insert_all b : edits (length b) [] b.
Proof.
  induction b as [|y b IH]; [constructor|].
  replace (length (y :: b)) with (1 + length b) by done.
  eapply edits_trans; [|by apply edits_cons].
  eapply edits_S; [apply (edit_insert [] y [])|constructor].
Qed.

Lemma edits_delete_all a : edits (length a) a [].
Proof.
  induction a as [|x a IH]; [constructor|].
  simpl. eapply edits_S; [apply (edit_delete [] x a)|done].
Qed.

Lemma lev_edits a : ∀ b, edits (lev a b) a b.
Proof.
  induction a as [|x a IHa]; intros b; [apply edits_insert_all|].
  induction b as [|y b IHb].
  { rewrite lev_nil_r. apply edits_delete_all. }
  rewrite lev_cons. case_decide as Hxy.
  { subst. by apply edits_cons. }
  unfold min3.
  destruct (Nat.min_spec (lev a (y :: b)) (Nat.min (lev (x :: a) b) (lev a b)))
    as [[_ ->]|[_ ->]].
  - eapply edits_S; [apply (edit_delete [] x a)|apply IHa].
  - destruct (Nat.min_spec (lev (x :: a) b) (lev a b)) as [[_ ->]|[_ ->]].
    + eapply edits_S; [apply (edit_insert [] y (x :: a))|].
      by apply edits_cons.
    + eapply edits_S; [by apply (edit_substitute [] x y a)|].
      apply edits_cons, IHa.
Qed.

Lemma lev_edit_distance a b : edit_distance a b (lev a b).
Proof. split; [apply lev_edits|intros n; apply edits_lev]. Qed.

Lemma edit_distance_unique a b d d' :
  edit_distance a b d → edit_distance a b d' → d = d'.
Proof. intros [H1 H2] [H3 H4]. apply H2 in H3. apply H4 in H1. lia. Qed.

Lemma lev_triangle a b c : lev a c ≤ lev a b + lev b c.
Proof. apply edits_lev, (edits_trans _ _ a b c); apply lev_edits. Qed.

Lemma lev_zero a : ∀ b, lev a b = 0 → a = b.
Proof.
  induction a as [|x a IH]; intros [|y b]; try done.
  rewrite lev_cons. case_decide; [|done].
  intros. subst. f_equal. by apply IH.
Qed.

Lemma edit1_reverse a b : edit1 a b → edit1 (reverse a) (reverse b).
Proof.
  destruct 1; rewrite !reverse_app, !reverse_cons, <-!(assoc_L (++)); simpl;
    by constructor.
Qed.

Lemma edits_reverse n a b : edits n a b → edits n (reverse a) (reverse b).
Proof.
  induction 1; [constructor|].
  eapply edits_S; [by apply edit1_reverse|done].
Qed.

Lemma lev_reverse a b : lev (reverse a) (reverse b) = lev a b.
Proof.
  apply Nat.le_antisymm; apply edits_lev.
  - apply edits_reverse, lev_edits.
  - rewrite <-(reverse_involutive a), <-(reverse_involutive b).
    apply edits_reverse. rewrite !reverse_involutive. apply lev_edits.
Qed.

End lev_facts.

Section table_facts.
Context {A : Type} `{EqDecision A}.
Local Open Scope nat_scope.

Lemma table_0 (s1 s2 : list A) j : table s1 s2 0 j = j.
Proof. reflexivity. Qed.

Lemma table_S_0 (s1 s2 : list A) i : table s1 s2 (S i) 0 = S i.
Proof. reflexivity. Qed.

Lemma table_S_S (s1 s2 : list A) i j :
  table s1 s2 (S i) (S j) =
    if decide (s1 !! i = s2 !! j) then table s1 s2 i j
    else S (min3 (table s1 s2 i (S j)) (table s1 s2 (S i) j) (table s1 s2 i j)).
Proof. reflexivity. Qed.

Lemma table_i_0 (s1 s2 : list A) i : table s1 s2 i 0 = i.
Proof. by destruct i. Qed.

Lemma table_bound (s1 s2 : list A) i : ∀ j, table s1 s2 i j ≤ Nat.max i j.
Proof.
  induction i as [|i IHi]; intros j; [rewrite table_0; lia|].
  induction j as [|j IHj]; [rewrite table_S_0; lia|].
  rewrite table_S_S. specialize (IHi j). unfold min3. case_decide; lia.
Qed.

(** The table entry is the recurrence on the two prefixes. *)
Lemma table_lev (s1 s2 : list A) i :
  i ≤ length s1 → ∀ j, j ≤ length s2 →
  table s1 s2 i j = lev (reverse (take i s1)) (reverse (take j s2)).
Proof.
  induction i as [|i IHi]; intros Hi j Hj.
  { rewrite table_0, take_0, reverse_nil, lev_nil_l, length_reverse, length_take. lia. }
  induction j as [|j IHj].
  { rewrite table_S_0, take_0, reverse_nil, lev_nil_r, length_reverse, length_take. lia. }
  destruct (lookup_lt_is_Some_2 s1 i) as [x Hx]; [lia|].
  destruct (lookup_lt_is_Some_2 s2 j) as [y Hy]; [lia|].
  rewrite table_S_S, IHj, !IHi by lia.
  rewrite (take_S_r s1 i x), (take_S_r s2 j y) by done.
  rewrite !reverse_snoc, lev_cons, Hx, Hy. repeat case_decide; congruence.
Qed.

Lemma table_full (s1 s2 : list A) : table s1 s2 (length s1) (length s2) = lev s1 s2.
Proof. by rewrite table_lev, !firstn_all, lev_reverse. Qed.

Lemma length_table_row (s1 s2 : list A) i : length (table_row s1 s2 i) = S (length s2).
Proof. unfold table_row. by rewrite length_fmap, length_seq. Qed.

Lemma lookup_table_row (s1 s2 : list A) i j :
  j ≤ length s2 → table_row s1 s2 i !! j = Some (table s1 s2 i j).
Proof.
  intros Hj. unfold table_row.
  rewrite list_lookup_fmap, lookup_seq_lt by lia. done.
Qed.

Lemma table_row_0 (s1 s2 : list A) : table_row s1 s2 0 = seq 0 (S (length s2)).
Proof. unfold table_row. apply list_fmap_id. Qed.

(** A buffer whose cells hold the entries of row [i] is that row. *)
Lemma table_row_eq (s1 s2 : list A) i (r : list nat) :
  length r = S (length s2) →
  (∀ j, j ≤ length s2 → r !! j = Some (table s1 s2 i j)) →
  r = table_row s1 s2 i.
Proof.
  intros Hlen Hr. apply list_eq. intros j.
  destruct (decide (j ≤ length s2)).
  - by rewrite Hr, lookup_table_row.
  - rewrite !lookup_ge_None_2; [done| |]; rewrite ?length_table_row; lia.
Qed.

(** The inner loop of the two-row algorithm, column by column. *)
Lemma spec_row_prefix (s1 s2 : list A) i (current : list nat) n :
  length current = S (length s2) → n ≤ length s2 →
  let r := foldl (λ cur j,
               <[j := spec_cell s1 s2 (S i) j (table_row s1 s2 i) cur]> cur)
             (<[0 := S i]> current) (seq 1 n) in
  length r = S (length s2) ∧ ∀ j, j ≤ n → r !! j = Some (table s1 s2 (S i) j).
Proof.
  intros Hlen. induction n as [|n IH]; intros Hn.
  - simpl. rewrite length_insert. split; [done|]. intros j Hj.
    assert (j = 0) as -> by lia. rewrite list_lookup_insert_eq by lia. done.
  - rewrite (seq_S n 1), foldl_app. cbn [foldl Nat.add].
    destruct IH as [IHlen IH]; [lia|].
    set (r := foldl _ _ (seq 1 n)) in *. rewrite length_insert.
    split; [done|]. intros j Hj. destruct (decide (j = S n)) as [->|Hne].
    + rewrite list_lookup_insert_eq by lia. f_equal.
      unfold spec_cell. rewrite table_S_S.
      replace (S i - 1) with i by lia. replace (S n - 1) with n by lia.
      assert (Hu := lookup_table_row s1 s2 i (S n) Hn).
      assert (Hd := lookup_table_row s1 s2 i n ltac:(lia)).
      rewrite (list_lookup_total_correct _ _ _ Hu).
      rewrite (list_lookup_total_correct _ _ _ Hd).
      by rewrite (list_lookup_total_correct _ _ _ (IH n (Nat.le_refl n))).
    + rewrite list_lookup_insert_ne by done. apply IH. lia.
Qed.

Lemma spec_row_correct (s1 s2 : list A) i (current : list nat) :
  length current = S (length s2) →
  spec_row s1 s2 (S i) (table_row s1 s2 i) current = table_row s1 s2 (S i).
Proof.
  intros Hlen.
  destruct (spec_row_prefix s1 s2 i current (length s2)) as [? ?]; [done..|].
  by apply table_row_eq.
Qed.

Lemma spec_rows_table (s1 s2 : list A) k :
  spec_rows s1 s2 k
  = (table_row s1 s2 k,
     match k with
     | O => replicate (S (length s2)) 0
     | S k' => table_row s1 s2 k'
     end).
Proof.
  unfold spec_rows. induction k as [|k IH].
  - simpl. by rewrite table_row_0.
  - rewrite (seq_S k 1), foldl_app, IH. cbn [foldl Nat.add fst snd].
    rewrite spec_row_correct; [done|].
    destruct k; [apply length_replicate|apply length_table_row].
Qed.

(** The two-row algorithm computes the last entry of the full table. *)
Lemma two_row_dp_table (s1 s2 : list A) :
  two_row_dp s1 s2 = table s1 s2 (length s1) (length s2).
Proof.
  unfold two_row_dp. rewrite spec_rows_table. cbn [fst].
  by apply list_lookup_total_correct, lookup_table_row.
Qed.
End table_facts.

(** * The C function *)

Lemma int_wrap_id z : INT_MIN <= z <= INT_MAX → int_wrap z = z.
Proof.
  unfold INT_MIN, INT_MAX, int_wrap. intros Hz.
  rewrite Z.mod_small; lia.
Qed.

Lemma MIN_min a b : MIN a b = Z.min a b.
Proof. unfold MIN. destruct (Z.ltb_spec a b); lia. Qed.

Lemma strlen_c_str s : strlen s = Z.of_nat (length (c_str s)).
Proof.
  induction s as [|c s IH]; [done|]. simpl.
  destruct (Byte.eqb c NUL); simpl; lia.
Qed.

Lemma c_str_nul_free s : nul_free s = true → c_str s = s.
Proof.
  induction s as [|c s IH]; [done|]. simpl.
  destruct (Byte.eqb c NUL); simpl; [done|]. intros. f_equal. auto.
Qed.

Lemma nul_free_c_str s : nul_free (c_str s) = true.
Proof.
  induction s as [|c s IH]; [done|]. simpl.
  destruct (Byte.eqb c NUL) eqn:Hc; simpl; [done|]. by rewrite Hc.
Qed.

Lemma char_at_c_str s (k : nat) c :
  c_str s !! k = Some c → char_at s (Z.of_nat k) = Some c.
Proof.
  unfold char_at. destruct (Z.ltb_spec (Z.of_nat k) 0) as [?|_]; [lia|].
  rewrite Nat2Z.id. revert k.
  induction s as [|c' s IH]; intros k; [done|]. simpl.
  destruct (Byte.eqb c' NUL); [done|].
  destruct k as [|k]; simpl; [done|]. apply IH.
Qed.

Lemma read_Z (a : list Z) k : 0 <= k → read a k = a !! Z.to_nat k.
Proof. intros Hk. unfold read. by destruct (Z.ltb_spec k 0); [lia|]. Qed.

Lemma write_Z (a : list Z) k v :
  0 <= k < Z.of_nat (length a) → write a k v = Some (<[Z.to_nat k := v]> a).
Proof.
  intros Hk. unfold write.
  destruct (Z.leb_spec 0 k); [|lia].
  by destruct (Z.ltb_spec k (Z.of_nat (length a))); [|lia].
Qed.

Lemma read_nat (a : list Z) (k : nat) : read a (Z.of_nat k) = a !! k.
Proof. rewrite read_Z by lia. by rewrite Nat2Z.id. Qed.

Lemma write_nat (a : list Z) (k : nat) v :
  (k < length a)%nat → write a (Z.of_nat k) v = Some (<[k := v]> a).
Proof. intros Hk. rewrite write_Z by lia. by rewrite Nat2Z.id. Qed.

(** The invariant rule of the [for] loop: the counter never overflows and
    the fuel is never exhausted. *)
Lemma for_loop_inv {St : Type} (Inv : Z → St → Prop)
    (body : Z → St → option St) (hi : Z) (fuel : nat) :
  hi <= INT_MAX →
  ∀ (lo : Z) (st : St),
    INT_MIN <= lo <= hi → hi - lo <= Z.of_nat fuel → Inv lo st →
    (∀ k s, lo <= k < hi → Inv k s →
            ∃ s', body k s = Some s' ∧ Inv (k + 1) s') →
    ∃ st', for_loop fuel lo hi body st = Some st' ∧ Inv hi st'.
Proof.
  intros Hhi. induction fuel as [|fuel IH]; intros lo st Hlo Hfuel Hinv Hstep.
  - assert (lo = hi) as -> by lia. simpl.
    destruct (Z.ltb_spec hi hi); [lia|]. eauto.
  - simpl. destruct (Z.ltb_spec lo hi) as [Hlt|Hge].
    + destruct (Hstep lo st) as (s' & -> & Hs'); [lia|done|]. simpl.
      rewrite int_wrap_id by (unfold INT_MIN in *; lia).
      apply IH; [lia|lia|done|].
      intros k s Hk. apply Hstep. lia.
    + assert (lo = hi) as -> by lia. eauto.
Qed.

(** Reduce a bind whose first computation is a known value. *)
Ltac bind_step := cbn [mbind option_bind].

Section levenshtein_facts.
Variables s1 s2 : list byte.
Hypothesis Hfits1 : fits_int s1.
Hypothesis Hfits2 : fits_int s2.

Let a := c_str s1.
Let b := c_str s2.
Let n2 := int_wrap (strlen s2 + 1).

Lemma fits_length_1 : Z.of_nat (S (length a)) <= INT_MAX.
Proof. unfold fits_int in Hfits1. rewrite strlen_c_str in Hfits1. subst a. lia. Qed.

Lemma fits_length_2 : Z.of_nat (S (length b)) <= INT_MAX.
Proof. unfold fits_int in Hfits2. rewrite strlen_c_str in Hfits2. subst b. lia. Qed.

Lemma n1_eq : int_wrap (strlen s1 + 1) = Z.of_nat (S (length a)).
Proof.
  pose proof fits_length_1. rewrite strlen_c_str. fold a.
  rewrite int_wrap_id; unfold INT_MIN; lia.
Qed.

Lemma n2_eq : n2 = Z.of_nat (S (length b)).
Proof.
  pose proof fits_length_2. unfold n2. rewrite strlen_c_str. fold b.
  rewrite int_wrap_id; unfold INT_MIN; lia.
Qed.

Lemma length_zrow i : length (zrow s1 s2 i) = S (length b).
Proof. unfold zrow. by rewrite length_fmap, length_table_row. Qed.

Lemma lookup_zrow i j :
  (j ≤ length b)%nat → zrow s1 s2 i !! j = Some (Z.of_nat (table a b i j)).
Proof.
  intros Hj. unfold zrow. by rewrite list_lookup_fmap, lookup_table_row.
Qed.

Lemma zrow_eq i (r : list Z) :
  length r = S (length b) →
  (∀ j, (j ≤ length b)%nat → r !! j = Some (Z.of_nat (table a b i j))) →
  r = zrow s1 s2 i.
Proof.
  intros Hlen Hr. apply list_eq. intros j.
  destruct (decide (j ≤ length b)%nat).
  - by rewrite Hr, lookup_zrow.
  - rewrite !lookup_ge_None_2; [done| |]; rewrite ?length_zrow; lia.
Qed.

Lemma length_calloc : length (calloc n2) = S (length b).
Proof. unfold calloc. rewrite length_replicate, n2_eq. lia. Qed.

Lemma init_rows_spec : init_rows n2 = Some (Rows (zrow s1 s2 0) (calloc n2)).
Proof.
  unfold init_rows. pose proof fits_length_2 as Hb.
  destruct (for_loop_inv
    (λ i xr, length xr = S (length b) ∧
             ∀ k : nat, Z.of_nat k < i → xr !! k = Some (Z.of_nat k))
    (λ i xr, write xr i i) n2 (Z.to_nat n2)) with (lo := 0) (st := calloc n2)
    as (x0 & -> & Hlen & Hx0).
  - rewrite n2_eq. lia.
  - rewrite n2_eq. unfold INT_MIN. lia.
  - rewrite n2_eq. lia.
  - split; [apply length_calloc|]. lia.
  - intros k xr Hk [Hlen Hxr]. rewrite n2_eq in Hk.
    rewrite write_Z by lia. eexists. split; [done|].
    rewrite length_insert. split; [done|]. intros j Hj.
    destruct (decide (j = Z.to_nat k)) as [->|Hne].
    + rewrite list_lookup_insert_eq by lia. f_equal. lia.
    + rewrite list_lookup_insert_ne by done. apply Hxr. lia.
  - simpl. do 2 f_equal. apply zrow_eq; [done|]. intros j Hj.
    rewrite table_0. apply Hx0. rewrite n2_eq. lia.
Qed.

Lemma table_fits i j :
  (i ≤ length a)%nat → (j ≤ length b)%nat →
  INT_MIN <= Z.of_nat (table a b i j) + 1 <= INT_MAX.
Proof.
  intros Hi Hj. pose proof (table_bound a b i j).
  pose proof fits_length_1. pose proof fits_length_2.
  unfold INT_MIN. lia.
Qed.

(** One statement of the inner loop fills cell [j] of row [i + 1]. *)
Lemma inner_body_spec i j c1 (yr : list Z) :
  a !! i = Some c1 → (j < length b)%nat → length yr = S (length b) →
  yr !! j = Some (Z.of_nat (table a b (S i) j)) →
  inner_body c1 s2 (zrow s1 s2 i) (Z.of_nat (S j)) yr
  = Some (<[S j := Z.of_nat (table a b (S i) (S j))]> yr).
Proof.
  intros Ha Hj Hlen Hl. unfold inner_body.
  assert (i < length a)%nat by (by eapply lookup_lt_Some).
  destruct (lookup_lt_is_Some_2 b j Hj) as [c2 Hc2].
  replace (Z.of_nat (S j) - 1) with (Z.of_nat j) by lia.
  rewrite (char_at_c_str s2 j c2 Hc2). bind_step.
  rewrite table_S_S, Ha, Hc2.
  replace (Z.of_nat (S j) - 1) with (Z.of_nat j) by lia.
  rewrite !read_nat, !lookup_zrow, Hl by lia.
  destruct (Byte.eqb c1 c2) eqn:Heq; bind_step; rewrite write_nat by lia.
  - apply Byte.byte_dec_bl in Heq as ->. by case_decide.
  - apply Byte.eqb_false in Heq. case_decide; [congruence|].
    rewrite !int_wrap_id by (apply table_fits; lia).
    rewrite !MIN_min. do 2 f_equal. unfold min3. lia.
Qed.

Lemma inner_loop_spec i c1 (y0 : list Z) :
  a !! i = Some c1 → length y0 = S (length b) →
  y0 !! 0%nat = Some (Z.of_nat (S i)) →
  for_loop (Z.to_nat n2) 1 n2 (inner_body c1 s2 (zrow s1 s2 i)) y0
  = Some (zrow s1 s2 (S i)).
Proof.
  intros Ha Hlen H0. pose proof fits_length_2 as Hb.
  destruct (for_loop_inv
    (λ j yr, length yr = S (length b) ∧
             ∀ k : nat, Z.of_nat k < j →
               yr !! k = Some (Z.of_nat (table a b (S i) k)))
    (inner_body c1 s2 (zrow s1 s2 i)) n2 (Z.to_nat n2)) with (lo := 1) (st := y0)
    as (y' & -> & Hlen' & Hy').
  - rewrite n2_eq. lia.
  - rewrite n2_eq. unfold INT_MIN. lia.
  - rewrite n2_eq. lia.
  - split; [done|]. intros k Hk. assert (k = 0%nat) as -> by lia.
    by rewrite table_S_0.
  - intros j yr Hj [Hlenr Hyr]. rewrite n2_eq in Hj.
    assert (∃ jn : nat, j = Z.of_nat (S jn)) as [jn ->]
      by (exists (Z.to_nat j - 1)%nat; lia).
    rewrite inner_body_spec; [|done|lia|done|apply Hyr; lia].
    eexists. split; [done|]. rewrite length_insert. split; [done|].
    intros k Hk. destruct (decide (k = S jn)) as [->|Hne].
    + by rewrite list_lookup_insert_eq by lia.
    + rewrite list_lookup_insert_ne by done. apply Hyr. lia.
  - f_equal. apply zrow_eq; [done|]. intros j Hj. apply Hy'.
    rewrite n2_eq. lia.
Qed.

(** One round of the outer loop turns row [i] into row [i + 1] and keeps
    row [i] in the other buffer. *)
Lemma outer_body_spec i (yr : list Z) :
  (i < length a)%nat → length yr = S (length b) →
  outer_body s1 s2 n2 (Z.of_nat (S i)) (Rows (zrow s1 s2 i) yr)
  = Some (Rows (zrow s1 s2 (S i)) (zrow s1 s2 i)).
Proof.
  intros Hi Hlen. unfold outer_body. cbn [row_x row_y].
  destruct (lookup_lt_is_Some_2 a i Hi) as [c1 Hc1].
  replace (Z.of_nat (S i) - 1) with (Z.of_nat i) by lia.
  rewrite (char_at_c_str s1 i c1 Hc1). bind_step.
  rewrite write_Z by lia. bind_step.
  rewrite (inner_loop_spec i c1); [done..| |].
  - by rewrite length_insert.
  - by rewrite list_lookup_insert_eq by lia.
Qed.

Lemma rows_after_spec k :
  (k ≤ length a)%nat →
  rows_after s1 s2 k
  = Some (Rows (zrow s1 s2 k)
               (match k with O => calloc n2 | S k' => zrow s1 s2 k' end)).
Proof.
  induction k as [|k IH]; intros Hk; [apply init_rows_spec|].
  cbn [rows_after]. rewrite IH by lia. bind_step.
  apply outer_body_spec; [lia|].
  destruct k; [apply length_calloc|apply length_zrow].
Qed.

(** The outer loop stopped after round [k] has reached [rows_after k]. *)
Lemma outer_loop_rows_after (k fuel : nat) :
  (k ≤ length a)%nat → (k ≤ fuel)%nat →
  for_loop fuel 1 (Z.of_nat k + 1) (outer_body s1 s2 n2)
    (Rows (zrow s1 s2 0) (calloc n2))
  = rows_after s1 s2 k.
Proof.
  intros Hk Hfuel. pose proof fits_length_1 as Ha.
  destruct (for_loop_inv
    (λ i st, rows_after s1 s2 (Z.to_nat (i - 1)) = Some st)
    (outer_body s1 s2 n2) (Z.of_nat k + 1) fuel)
    with (lo := 1) (st := Rows (zrow s1 s2 0) (calloc n2))
    as (st & -> & Hst).
  - lia.
  - unfold INT_MIN. lia.
  - lia.
  - apply init_rows_spec.
  - intros i st Hi Hst.
    assert (∃ kn : nat, i = Z.of_nat (S kn)) as [kn ->]
      by (exists (Z.to_nat i - 1)%nat; lia).
    replace (Z.to_nat (Z.of_nat (S kn) - 1)) with kn in Hst by lia.
    replace (Z.to_nat (Z.of_nat (S kn) + 1 - 1)) with (S kn) by lia.
    cbn [rows_after]. rewrite Hst. bind_step. fold n2.
    rewrite rows_after_spec in Hst by lia. injection Hst as <-.
    rewrite outer_body_spec; [eauto|lia|].
    destruct kn; [apply length_calloc|apply length_zrow].
  - by replace (Z.to_nat (Z.of_nat k + 1 - 1)) with k in Hst by lia.
Qed.

(** The function runs all [len(s1)] rounds and returns the last cell of
    the final [x]. *)
Lemma levenshtein_rows_after :
  levenshtein s1 s2
  = st ← rows_after s1 s2 (length a); read (row_x st) (n2 - 1).
Proof.
  unfold levenshtein. fold n2. rewrite init_rows_spec. bind_step.
  rewrite n1_eq.
  replace (Z.of_nat (S (length a))) with (Z.of_nat (length a) + 1) by lia.
  by rewrite outer_loop_rows_after by lia.
Qed.

(** The function returns the last entry of the full table. *)
Lemma levenshtein_table :
  levenshtein s1 s2 = Some (Z.of_nat (table a b (length a) (length b))).
Proof.
  rewrite levenshtein_rows_after, rows_after_spec by done. bind_step.
  cbn [row_x].
  rewrite n2_eq. replace (Z.of_nat (S (length b)) - 1) with (Z.of_nat (length b)) by lia.
  by rewrite read_nat, lookup_zrow.
Qed.

Lemma levenshtein_lev : levenshtein s1 s2 = Some (Z.of_nat (lev a b)).
Proof. by rewrite levenshtein_table, table_full. Qed.
End levenshtein_facts.

Lemma c_str_idemp s : c_str (c_str s) = c_str s.
Proof. apply c_str_nul_free, nul_free_c_str. Qed.

Lemma c_str_app_NUL s t : c_str (c_str s ++ NUL :: t) = c_str s.
Proof.
  induction s as [|c s IH]; [done|]. simpl.
  destruct (Byte.eqb c NUL) eqn:Hc; [done|]. simpl. by rewrite Hc, IH.
Qed.

Lemma fits_int_c_str s : fits_int s → fits_int (c_str s).
Proof. unfold fits_int. by rewrite !strlen_c_str, c_str_idemp. Qed.

Lemma fits_int_app_NUL s t : fits_int s → fits_int (c_str s ++ NUL :: t).
Proof. unfold fits_int. by rewrite !strlen_c_str, c_str_app_NUL. Qed.

Lemma fits_int_nil : fits_int [].
Proof. unfold fits_int, INT_MAX. simpl. lia. Qed.

Lemma strlen_replicate (c : byte) (n : nat) :
  c ≠ NUL → strlen (replicate n c) = Z.of_nat n.
Proof.
  intros Hc. induction n as [|n IH]; [done|]. cbn [replicate strlen].
  destruct (Byte.eqb c NUL) eqn:Heq; [by apply Byte.byte_dec_bl in Heq|lia].
Qed.

(** The bound [fits_int] is needed. A length of [INT_MAX] bytes no longer
    fits once the terminator is counted: [n1] wraps round to [INT_MIN], the
    outer loop does not run, and the function returns cell 0 of the initial
    row. Inputs of that size are what the specification sets aside as
    pathological. *)
Lemma levenshtein_length_wraps (s1 : list byte) :
  strlen s1 = INT_MAX → levenshtein s1 [] = Some 0.
Proof.
  intros Hlen. unfold levenshtein. rewrite Hlen.
  change (int_wrap (INT_MAX + 1)) with INT_MIN.
  change (int_wrap (strlen [] + 1)) with 1.
  reflexivity.
Qed.

Lemma levenshtein_length_wraps_at :
  levenshtein (replicate (Z.to_nat INT_MAX) "a"%byte) [] = Some 0.
Proof.
  apply levenshtein_length_wraps. rewrite strlen_replicate by done.
  by rewrite Z2Nat.id.
Qed.

(** * The claims *)

(** C1: on C strings whose lengths an [int] can hold, the function returns
    the Levenshtein distance of its two arguments: that many insertions,
    deletions and substitutions of one character transform the first into
    the second, and no smaller number does. *)
Theorem levenshtein_edit_distance (a b : list byte) :
  nul_free a = true → nul_free b = true → fits_int a → fits_int b →
  ∃ d : nat, levenshtein a b = Some (Z.of_nat d) ∧ edit_distance a b d.
Proof.
  intros Ha Hb Hfa Hfb. exists (lev a b). split.
  - by rewrite levenshtein_lev, !c_str_nul_free.
  - apply lev_edit_distance.
Qed.

Lemma levenshtein_edit_distance_witness :
  ∃ d : nat,
    levenshtein (bytes "kitten") (bytes "sitting") = Some (Z.of_nat d) ∧
    edit_distance (bytes "kitten") (bytes "sitting") d.
Proof.
  apply levenshtein_edit_distance; [reflexivity|reflexivity| |];
    unfold fits_int, INT_MAX; simpl; lia.
Defined.

(** C2: the function follows the two-row algorithm of the specification.
    After every round of the outer loop its two buffers hold the rows
    (previous, current) of the specified algorithm, it returns cell
    [len(s2)] of the row [x] points to after the last round, which is the
    value the specified algorithm returns, and that value is the entry of
    the full-table recurrence for the two whole strings. *)
Theorem levenshtein_refines_two_row_dp (s1 s2 : list byte) :
  fits_int s1 → fits_int s2 →
  (∀ k : nat, (k ≤ length (c_str s1))%nat →
     rows_after s1 s2 k
     = Some (Rows (Z.of_nat <$> (spec_rows (c_str s1) (c_str s2) k).1)
                  (Z.of_nat <$> (spec_rows (c_str s1) (c_str s2) k).2))) ∧
  levenshtein s1 s2
  = (st ← rows_after s1 s2 (length (c_str s1));
     read (row_x st) (Z.of_nat (length (c_str s2)))) ∧
  levenshtein s1 s2 = Some (Z.of_nat (two_row_dp (c_str s1) (c_str s2))) ∧
  two_row_dp (c_str s1) (c_str s2)
  = table (c_str s1) (c_str s2) (length (c_str s1)) (length (c_str s2)).
Proof.
  intros Hf1 Hf2. split; [|split; [|split]].
  - intros k Hk. rewrite rows_after_spec, spec_rows_table by done.
    cbn [fst snd]. do 2 f_equal. destruct k; [|done].
    rewrite fmap_replicate, n2_eq by done. unfold calloc.
    by rewrite Nat2Z.id.
  - rewrite levenshtein_rows_after, n2_eq by done.
    by replace (Z.of_nat (S (length (c_str s2))) - 1)
      with (Z.of_nat (length (c_str s2))) by lia.
  - by rewrite two_row_dp_table, levenshtein_table.
  - apply two_row_dp_table.
Qed.

Lemma levenshtein_refines_two_row_dp_witness :
  levenshtein (bytes "flaw") (bytes "lawn")
  = Some (Z.of_nat (two_row_dp (c_str (bytes "flaw")) (c_str (bytes "lawn")))).
Proof.
  apply (levenshtein_refines_two_row_dp (bytes "flaw") (bytes "lawn"));
    unfold fits_int, INT_MAX; simpl; lia.
Defined.

(** C3: on C strings whose lengths an [int] can hold, the function returns 0
    exactly when its two arguments are the same string; in particular it
    returns 0 on a string and itself. *)
Theorem levenshtein_zero_iff (a b : list byte) :
  nul_free a = true → nul_free b = true → fits_int a → fits_int b →
  (levenshtein a b = Some 0 ↔ a = b) ∧ levenshtein a a = Some 0.
Proof.
  intros Ha Hb Hfa Hfb.
  rewrite !levenshtein_lev, !c_str_nul_free, lev_refl by done.
  split; [|done]. split.
  - intros [= Hd]. apply lev_zero. lia.
  - intros ->. by rewrite lev_refl.
Qed.

Lemma levenshtein_zero_iff_witness :
  (levenshtein (bytes "abc") (bytes "abd") = Some 0
   ↔ bytes "abc" = bytes "abd") ∧
  levenshtein (bytes "abc") (bytes "abc") = Some 0.
Proof.
  apply levenshtein_zero_iff; [reflexivity|reflexivity| |];
    unfold fits_int, INT_MAX; simpl; lia.
Defined.

(** C4: the function is symmetric in its two arguments. *)
Theorem levenshtein_symmetric (a b : list byte) :
  fits_int a → fits_int b → levenshtein a b = levenshtein b a.
Proof.
  intros Hfa Hfb. rewrite !levenshtein_lev by done. by rewrite lev_sym.
Qed.

Lemma levenshtein_symmetric_witness :
  levenshtein (bytes "flaw") (bytes "lawn")
  = levenshtein (bytes "lawn") (bytes "flaw").
Proof.
  apply levenshtein_symmetric; unfold fits_int, INT_MAX; simpl; lia.
Defined.

(** C5: when one argument is the empty string the function returns the
    length of the other one; the general loops produce it, the function has
    no branch for the case. *)
Theorem levenshtein_empty (s : list byte) :
  nul_free s = true → fits_int s →
  levenshtein [] s = Some (Z.of_nat (length s)) ∧
  levenshtein s [] = Some (Z.of_nat (length s)).
Proof.
  intros Hs Hf. pose proof fits_int_nil.
  rewrite !levenshtein_lev, !c_str_nul_free by done.
  by rewrite lev_nil_l, lev_nil_r.
Qed.

Lemma levenshtein_empty_witness :
  levenshtein [] (bytes "lawn") = Some (Z.of_nat (length (bytes "lawn"))) ∧
  levenshtein (bytes "lawn") [] = Some (Z.of_nat (length (bytes "lawn"))).
Proof.
  apply levenshtein_empty; [reflexivity|].
  unfold fits_int, INT_MAX; simpl; lia.
Defined.

Lemma Forall_zrow_bound (s1 s2 : list byte) k :
  (k ≤ length (c_str s1))%nat →
  Forall (λ v, 0 <= v <= Z.max (strlen s1) (strlen s2)) (zrow s1 s2 k).
Proof.
  intros Hk. rewrite !strlen_c_str. unfold zrow, table_row.
  rewrite <-list_fmap_compose. apply Forall_fmap, Forall_forall.
  intros j [_ Hj]%in_seq. simpl.
  pose proof (table_bound (c_str s1) (c_str s2) k j). lia.
Qed.

(** C6: the row invariants. For every [i] from 0 to [len(s1)], the outer
    loop stopped after round [i] has reached the state [rows_after s1 s2 i];
    in that state both buffers have [len(s2) + 1] cells, cell 0 of the row
    just computed (the one [x] points to after the swap) holds [i], and every
    cell of either buffer lies between 0 and [max(len(s1), len(s2))]. *)
Theorem rows_after_invariant (s1 s2 : list byte) (i : nat) :
  fits_int s1 → fits_int s2 → Z.of_nat i <= strlen s1 →
  (st0 ← init_rows (int_wrap (strlen s2 + 1));
   for_loop i 1 (Z.of_nat i + 1)
     (outer_body s1 s2 (int_wrap (strlen s2 + 1))) st0)
  = rows_after s1 s2 i ∧
  ∃ st : rows,
    rows_after s1 s2 i = Some st ∧
    row_x st !! 0%nat = Some (Z.of_nat i) ∧
    Z.of_nat (length (row_x st)) = strlen s2 + 1 ∧
    Z.of_nat (length (row_y st)) = strlen s2 + 1 ∧
    Forall (λ v, 0 <= v <= Z.max (strlen s1) (strlen s2)) (row_x st) ∧
    Forall (λ v, 0 <= v <= Z.max (strlen s1) (strlen s2)) (row_y st).
Proof.
  intros Hf1 Hf2 Hi.
  pose proof (strlen_c_str s1) as E1. pose proof (strlen_c_str s2) as E2.
  split.
  - rewrite (init_rows_spec s1 s2) by done. bind_step.
    apply outer_loop_rows_after; (done || lia).
  - rewrite rows_after_spec by (done || lia). eexists. split; [done|].
    cbn [row_x row_y]. rewrite lookup_zrow, table_i_0 by (done || lia).
    rewrite length_zrow by done.
    split; [done|]. split; [lia|]. split; [|split].
    + destruct i; [rewrite length_calloc by done|rewrite length_zrow by done];
        lia.
    + apply Forall_zrow_bound. lia.
    + destruct i; [apply Forall_replicate; lia|apply Forall_zrow_bound; lia].
Qed.

Lemma rows_after_invariant_witness :
  ∃ st : rows,
    rows_after (bytes "flaw") (bytes "lawn") 2 = Some st ∧
    row_x st !! 0%nat = Some 2.
Proof.
  destruct (rows_after_invariant (bytes "flaw") (bytes "lawn") 2)
    as [_ (st & Hst & H0 & _)].
  - unfold fits_int, INT_MAX; simpl; lia.
  - unfold fits_int, INT_MAX; simpl; lia.
  - simpl; lia.
  - exists st. split; [exact Hst|exact H0].
Defined.

(** C7: the triangle inequality. On any three strings the function returns
    three values, and the one from [a] to [c] is at most the sum of those
    from [a] to [b] and from [b] to [c]. *)
Theorem levenshtein_triangle (a b c : list byte) :
  fits_int a → fits_int b → fits_int c →
  ∃ dac dab dbc : Z,
    levenshtein a c = Some dac ∧ levenshtein a b = Some dab ∧
    levenshtein b c = Some dbc ∧ dac <= dab + dbc.
Proof.
  intros Hfa Hfb Hfc. rewrite !levenshtein_lev by done.
  do 3 eexists. do 3 (split; [done|]).
  pose proof (lev_triangle (c_str a) (c_str b) (c_str c)). lia.
Qed.

Lemma levenshtein_triangle_witness :
  ∃ dac dab dbc : Z,
    levenshtein (bytes "kitten") (bytes "sitting") = Some dac ∧
    levenshtein (bytes "kitten") (bytes "mitten") = Some dab ∧
    levenshtein (bytes "mitten") (bytes "sitting") = Some dbc ∧
    dac <= dab + dbc.
Proof.
  apply levenshtein_triangle; unfold fits_int, INT_MAX; simpl; lia.
Defined.

(** C8: the function is total on strings whose lengths an [int] can hold:
    it returns a value (no access outside a buffer, no overflow, every loop
    ends), the value is a non-negative integer, and it is determined by the
    two arguments alone. *)
Theorem levenshtein_total (s1 s2 : list byte) :
  fits_int s1 → fits_int s2 →
  ∃ d : Z, levenshtein s1 s2 = Some d ∧ 0 <= d ∧
           ∀ d' : Z, levenshtein s1 s2 = Some d' → d' = d.
Proof.
  intros Hf1 Hf2. rewrite levenshtein_lev by done.
  eexists. split; [done|]. split; [lia|]. by intros d' [= <-].
Qed.

Lemma levenshtein_total_witness :
  ∃ d : Z, levenshtein (bytes "flaw") (bytes "lawn") = Some d ∧ 0 <= d ∧
           ∀ d' : Z, levenshtein (bytes "flaw") (bytes "lawn") = Some d' → d' = d.
Proof.
  apply levenshtein_total; unfold fits_int, INT_MAX; simpl; lia.
Defined.

(** C9: C-string semantics on raw bytes. The function returns the
    Levenshtein distance of the two byte sequences that precede the first
    NUL of each argument; it returns the same on those two prefixes alone,
    and whatever bytes follow a NUL have no influence. *)
Theorem levenshtein_c_string (s1 s2 : list byte) :
  fits_int s1 → fits_int s2 →
  (∃ d : nat, levenshtein s1 s2 = Some (Z.of_nat d) ∧
              edit_distance (c_str s1) (c_str s2) d) ∧
  levenshtein (c_str s1) (c_str s2) = levenshtein s1 s2 ∧
  ∀ t1 t2 : list byte,
    levenshtein (c_str s1 ++ NUL :: t1) (c_str s2 ++ NUL :: t2)
    = levenshtein s1 s2.
Proof.
  intros Hf1 Hf2. split; [|split].
  - exists (lev (c_str s1) (c_str s2)).
    split; [by apply levenshtein_lev|apply lev_edit_distance].
  - rewrite !levenshtein_lev by auto using fits_int_c_str.
    by rewrite !c_str_idemp.
  - intros t1 t2. rewrite !levenshtein_lev by auto using fits_int_app_NUL.
    by rewrite !c_str_app_NUL.
Qed.

Lemma levenshtein_c_string_witness :
  levenshtein (c_str (bytes "ab" ++ NUL :: bytes "xyz")) (c_str (bytes "abc"))
  = levenshtein (bytes "ab" ++ NUL :: bytes "xyz") (bytes "abc").
Proof.
  apply (levenshtein_c_string (bytes "ab" ++ NUL :: bytes "xyz") (bytes "abc"));
    unfold fits_int, INT_MAX; simpl; lia.
Defined.

(** C10: the concrete cases of the specification. *)
Theorem levenshtein_examples :
  levenshtein (bytes "kitten") (bytes "sitting") = Some 3 ∧
  levenshtein (bytes "flaw") (bytes "lawn") = Some 2 ∧
  levenshtein (bytes "a") (bytes "") = Some 1 ∧
  levenshtein (bytes "a") (bytes "b") = Some 1.
Proof. vm_compute. by repeat split. Qed.

(** Further cases: the remaining examples of the specification, and a string
    with bytes after a NUL. *)
Example levenshtein_empty_empty : levenshtein (bytes "") (bytes "") = Some 0.
Proof. reflexivity. Qed.

Example levenshtein_abc_abc : levenshtein (bytes "abc") (bytes "abc") = Some 0.
Proof. reflexivity. Qed.

Example levenshtein_after_nul :
  levenshtein (bytes "ab" ++ NUL :: bytes "xyz") (bytes "ab") = Some 0.
Proof. reflexivity. Qed.

(** * Further properties of the recurrence *)

Section lev_more.
Context {A : Type} `{EqDecision A}.
Implicit Types a b c p q : list A.
Local Open Scope nat_scope.

Lemma lev_le_max a b : lev a b ≤ Nat.max (length a) (length b).
Proof.
  revert b. induction a as [|x a IHa]; intros b; [rewrite lev_nil_l; lia|].
  induction b as [|y b IHb]; [rewrite lev_nil_r; lia|].
  rewrite lev_cons. specialize (IHa b). simpl in *. unfold min3.
  case_decide; lia.
Qed.

(** Every edit changes the length by at most one. *)
Lemma lev_length_diff a b :
  length a - length b ≤ lev a b ∧ length b - length a ≤ lev a b.
Proof.
  revert b. induction a as [|x a IHa]; intros b.
  { rewrite lev_nil_l. simpl. lia. }
  induction b as [|y b IHb]; [rewrite lev_nil_r; simpl; lia|].
  rewrite lev_cons. pose proof (IHa b). pose proof (IHa (y :: b)).
  simpl in *. unfold min3. case_decide; lia.
Qed.

Lemma lev_app_prefix p a b : lev (p ++ a) (p ++ b) = lev a b.
Proof.
  induction p as [|x p IH]; [done|]. simpl. rewrite lev_cons.
  by case_decide.
Qed.

Lemma lev_app_suffix q a b : lev (a ++ q) (b ++ q) = lev a b.
Proof.
  rewrite <-lev_reverse, !reverse_app, lev_app_prefix. apply lev_reverse.
Qed.

Lemma edit1_neq a b : edit1 a b → a ≠ b.
Proof.
  destruct 1 as [l x r|l x r|l x y r Hne]; intros Heq.
  - apply (f_equal length) in Heq. rewrite !length_app in Heq. simpl in Heq. lia.
  - apply (f_equal length) in Heq. rewrite !length_app in Heq. simpl in Heq. lia.
  - apply app_inv_head in Heq. congruence.
Qed.

Lemma lev_one_edit1 a b : lev a b = 1 ↔ edit1 a b.
Proof.
  split.
  - intros Hd. pose proof (lev_edits a b) as He. rewrite Hd in He.
    inversion He as [|n a' b' c' H1 H0]; subst. by inversion H0; subst.
  - intros He. assert (lev a b ≤ 1).
    { apply edits_lev. eapply edits_S; [done|constructor]. }
    assert (lev a b ≠ 0); [|lia].
    intros H0. by apply lev_zero, edit1_neq in H0.
Qed.

Lemma edit1_app_r a b c : edit1 a b → edit1 (a ++ c) (b ++ c).
Proof.
  destruct 1; rewrite <-!(assoc_L (++)); simpl; by constructor.
Qed.

Lemma edits_app_r n a b c : edits n a b → edits n (a ++ c) (b ++ c).
Proof.
  induction 1; [constructor|].
  eapply edits_S; [by apply edit1_app_r|done].
Qed.

Lemma edits_app_l n p a b : edits n a b → edits n (p ++ a) (p ++ b).
Proof.
  intros He. induction p as [|x p IH]; [done|]. simpl. by apply edits_cons.
Qed.

(** Distances of the parts add up to a bound for the concatenations. *)
Lemma lev_app_le a a' b b' : lev (a ++ a') (b ++ b') ≤ lev a b + lev a' b'.
Proof.
  apply edits_lev, (edits_trans _ _ _ (b ++ a')).
  - apply edits_app_r, lev_edits.
  - apply edits_app_l, lev_edits.
Qed.

Lemma lev_disjoint a :
  ∀ b, (∀ x, x ∈ a → x ∉ b) → lev a b = Nat.max (length a) (length b).
Proof.
  induction a as [|x a IHa]; intros b Hdis; [rewrite lev_nil_l; simpl; lia|].
  induction b as [|y b IHb]; [rewrite lev_nil_r; simpl; lia|].
  rewrite lev_cons. case_decide as Hxy.
  { subst. destruct (Hdis y); apply list_elem_of_here. }
  rewrite IHb, !IHa.
  - simpl. unfold min3. lia.
  - intros z Hz Hzb. apply (Hdis z); by apply list_elem_of_further.
  - intros z Hz. apply Hdis. by apply list_elem_of_further.
  - intros z Hz Hzb. apply (Hdis z Hz). by apply list_elem_of_further.
Qed.

Lemma lev_hamming a : ∀ b, length a = length b → lev a b ≤ hamming a b.
Proof.
  induction a as [|x a IH]; intros [|y b] Hlen; try done.
  rewrite lev_cons. simpl. specialize (IH b). unfold min3.
  case_decide; simpl in *; lia.
Qed.

(** Neighbouring entries of the table differ by at most one. *)
Lemma table_step_col (s1 s2 : list A) i j :
  i ≤ length s1 → S j ≤ length s2 →
  table s1 s2 i (S j) ≤ S (table s1 s2 i j) ∧
  table s1 s2 i j ≤ S (table s1 s2 i (S j)).
Proof.
  intros Hi Hj. rewrite !table_lev by lia.
  destruct (lookup_lt_is_Some_2 s2 j) as [y Hy]; [lia|].
  rewrite (take_S_r s2 j y), reverse_snoc by done. split.
  - rewrite (lev_sym _ (y :: _)), (lev_sym _ (reverse (take j s2))).
    apply lev_add_l.
  - apply lev_drop_r.
Qed.

Lemma table_step_row (s1 s2 : list A) i j :
  S i ≤ length s1 → j ≤ length s2 →
  table s1 s2 (S i) j ≤ S (table s1 s2 i j) ∧
  table s1 s2 i j ≤ S (table s1 s2 (S i) j).
Proof.
  intros Hi Hj. rewrite !table_lev by lia.
  destruct (lookup_lt_is_Some_2 s1 i) as [x Hx]; [lia|].
  rewrite (take_S_r s1 i x), reverse_snoc by done. split.
  - apply lev_add_l.
  - apply lev_drop_l.
Qed.
End lev_more.

(** * Further properties of the C function *)

Lemma nul_free_iff s : nul_free s = true ↔ NUL ∉ s.
Proof.
  induction s as [|c s IH]; simpl.
  - split; [intros _; apply not_elem_of_nil|done].
  - rewrite andb_true_iff, negb_true_iff, IH, not_elem_of_cons.
    split; intros [Hc Hs]; split; try done.
    + intros <-. by cbv in Hc.
    + destruct (Byte.eqb c NUL) eqn:Heq; [|done].
      apply Byte.byte_dec_bl in Heq. congruence.
Qed.

Lemma nul_free_app a b : nul_free (a ++ b) = nul_free a && nul_free b.
Proof. apply forallb_app. Qed.

Lemma nul_free_reverse s : nul_free s = true → nul_free (reverse s) = true.
Proof. rewrite !nul_free_iff. by rewrite elem_of_reverse. Qed.

Lemma strlen_nul_free s : nul_free s = true → strlen s = Z.of_nat (length s).
Proof. intros Hs. by rewrite strlen_c_str, c_str_nul_free. Qed.

Lemma levenshtein_nul_free a b :
  nul_free a = true → nul_free b = true → fits_int a → fits_int b →
  levenshtein a b = Some (Z.of_nat (lev a b)).
Proof. intros. by rewrite levenshtein_lev, !c_str_nul_free. Qed.

Lemma no_common_disjoint a b :
  no_common a b = true → ∀ c, c ∈ a → c ∉ b.
Proof.
  unfold no_common. rewrite forallb_forall. intros Hab c Hc Hcb.
  apply list_elem_of_In, Hab, negb_true_iff in Hc.
  assert (existsb (Byte.eqb c) b = true); [|congruence].
  apply existsb_exists. exists c. split; [by apply list_elem_of_In|].
  by apply Byte.byte_dec_lb.
Qed.

(** X1: the result lies between the difference of the two lengths and the
    larger of them. *)
Theorem levenshtein_bounds (s1 s2 : list byte) :
  fits_int s1 → fits_int s2 →
  ∃ d : Z, levenshtein s1 s2 = Some d ∧
           Z.abs (strlen s1 - strlen s2) <= d <= Z.max (strlen s1) (strlen s2).
Proof.
  intros Hf1 Hf2. rewrite levenshtein_lev, !strlen_c_str by done.
  eexists. split; [done|].
  pose proof (lev_le_max (c_str s1) (c_str s2)).
  pose proof (lev_length_diff (c_str s1) (c_str s2)). lia.
Qed.

Lemma levenshtein_bounds_witness :
  ∃ d : Z, levenshtein (bytes "kitten") (bytes "sitting") = Some d ∧
           Z.abs (strlen (bytes "kitten") - strlen (bytes "sitting")) <= d
           <= Z.max (strlen (bytes "kitten")) (strlen (bytes "sitting")).
Proof.
  apply levenshtein_bounds; unfold fits_int, INT_MAX; simpl; lia.
Defined.

(** X2: a prefix and a suffix shared by the two strings do not count: the
    result is the one for the parts in between. *)
Theorem levenshtein_common_affixes (p q a b : list byte) :
  nul_free (p ++ a ++ q) = true → nul_free (p ++ b ++ q) = true →
  fits_int (p ++ a ++ q) → fits_int (p ++ b ++ q) →
  levenshtein (p ++ a ++ q) (p ++ b ++ q) = levenshtein a b.
Proof.
  intros Ha Hb Hfa Hfb.
  pose proof Ha as Ha'. pose proof Hb as Hb'.
  rewrite !nul_free_app, !andb_true_iff in Ha', Hb'.
  destruct Ha' as (_ & Ha' & _), Hb' as (_ & Hb' & _).
  unfold fits_int in Hfa, Hfb.
  rewrite strlen_nul_free, !length_app in Hfa, Hfb by done.
  rewrite !levenshtein_nul_free; try done.
  - by rewrite lev_app_prefix, lev_app_suffix.
  - unfold fits_int. rewrite strlen_nul_free by done. lia.
  - unfold fits_int. rewrite strlen_nul_free by done. lia.
  - unfold fits_int. rewrite strlen_nul_free, !length_app by done. lia.
  - unfold fits_int. rewrite strlen_nul_free, !length_app by done. lia.
Qed.

Lemma levenshtein_common_affixes_witness :
  levenshtein (bytes "pre" ++ bytes "flaw" ++ bytes "fix")
              (bytes "pre" ++ bytes "lawn" ++ bytes "fix")
  = levenshtein (bytes "flaw") (bytes "lawn").
Proof.
  apply levenshtein_common_affixes; try reflexivity;
    unfold fits_int, INT_MAX; simpl; lia.
Defined.

(** X3: the function returns 1 exactly when one insertion, one deletion or
    one substitution of a character turns the first string into the
    second. *)
Theorem levenshtein_one_iff_edit1 (a b : list byte) :
  nul_free a = true → nul_free b = true → fits_int a → fits_int b →
  levenshtein a b = Some 1 ↔ edit1 a b.
Proof.
  intros Ha Hb Hfa Hfb. rewrite levenshtein_nul_free, <-lev_one_edit1 by done.
  split; [intros [= Hd]; lia|by intros ->].
Qed.

Lemma levenshtein_one_iff_edit1_witness :
  levenshtein (bytes "cat") (bytes "cart") = Some 1
  ↔ edit1 (bytes "cat") (bytes "cart").
Proof.
  apply levenshtein_one_iff_edit1; try reflexivity;
    unfold fits_int, INT_MAX; simpl; lia.
Defined.

(** X4: the result on two concatenations is at most the sum of the results
    on the first parts and on the second parts. *)
Theorem levenshtein_app_le (a a' b b' : list byte) :
  nul_free (a ++ a') = true → nul_free (b ++ b') = true →
  fits_int (a ++ a') → fits_int (b ++ b') →
  ∃ d d1 d2 : Z,
    levenshtein (a ++ a') (b ++ b') = Some d ∧
    levenshtein a b = Some d1 ∧ levenshtein a' b' = Some d2 ∧
    d <= d1 + d2.
Proof.
  intros Ha Hb Hfa Hfb.
  pose proof Ha as Ha'. pose proof Hb as Hb'.
  rewrite !nul_free_app, !andb_true_iff in Ha', Hb'.
  destruct Ha' as [Ha1 Ha2], Hb' as [Hb1 Hb2].
  unfold fits_int in Hfa, Hfb.
  rewrite strlen_nul_free, !length_app in Hfa, Hfb by done.
  rewrite !levenshtein_nul_free; try done;
    try (unfold fits_int; rewrite strlen_nul_free, ?length_app by done; lia).
  do 3 eexists. do 3 (split; [done|]).
  pose proof (lev_app_le a a' b b'). lia.
Qed.

Lemma levenshtein_app_le_witness :
  ∃ d d1 d2 : Z,
    levenshtein (bytes "kit" ++ bytes "ten") (bytes "sit" ++ bytes "ting")
    = Some d ∧
    levenshtein (bytes "kit") (bytes "sit") = Some d1 ∧
    levenshtein (bytes "ten") (bytes "ting") = Some d2 ∧
    d <= d1 + d2.
Proof.
  apply levenshtein_app_le; try reflexivity;
    unfold fits_int, INT_MAX; simpl; lia.
Defined.

(** X5: when no byte of the first string occurs in the second, the result
    is the larger of the two lengths. *)
Theorem levenshtein_no_common (a b : list byte) :
  nul_free a = true → nul_free b = true → fits_int a → fits_int b →
  no_common a b = true →
  levenshtein a b = Some (Z.max (Z.of_nat (length a)) (Z.of_nat (length b))).
Proof.
  intros Ha Hb Hfa Hfb Hab. rewrite levenshtein_nul_free by done.
  rewrite lev_disjoint by by apply no_common_disjoint. f_equal. lia.
Qed.

Lemma levenshtein_no_common_witness :
  levenshtein (bytes "abc") (bytes "xy")
  = Some (Z.max (Z.of_nat (length (bytes "abc")))
                (Z.of_nat (length (bytes "xy")))).
Proof.
  apply levenshtein_no_common; try reflexivity;
    unfold fits_int, INT_MAX; simpl; lia.
Defined.

Lemma lookup_zrow_inv (s1 s2 : list byte) i j (v : Z) :
  zrow s1 s2 i !! j = Some v →
  (j ≤ length (c_str s2))%nat ∧
  v = Z.of_nat (table (c_str s1) (c_str s2) i j).
Proof.
  intros Hv. pose proof (lookup_lt_Some _ _ _ Hv) as Hj.
  rewrite length_zrow in Hj. rewrite lookup_zrow in Hv by lia.
  split; [lia|congruence].
Qed.

(** X6: after every round of the outer loop, neighbouring cells of the row
    just computed differ by at most one, and from the first round on so do
    the cells at the same index of the two rows. *)
Theorem rows_after_neighbours (s1 s2 : list byte) (i : nat) :
  fits_int s1 → fits_int s2 → Z.of_nat i <= strlen s1 →
  ∃ st : rows,
    rows_after s1 s2 i = Some st ∧
    (∀ (j : nat) (u v : Z),
       row_x st !! j = Some u → row_x st !! S j = Some v →
       Z.abs (v - u) <= 1) ∧
    ((1 ≤ i)%nat →
     ∀ (j : nat) (u v : Z),
       row_x st !! j = Some u → row_y st !! j = Some v →
       Z.abs (u - v) <= 1).
Proof.
  intros Hf1 Hf2 Hi. pose proof (strlen_c_str s1) as E1.
  rewrite rows_after_spec by (done || lia). eexists. split; [done|].
  cbn [row_x row_y]. split.
  - intros j u v [Hj ->]%lookup_zrow_inv [HSj ->]%lookup_zrow_inv.
    pose proof (table_step_col (c_str s1) (c_str s2) i j). lia.
  - intros Hpos j u v. destruct i as [|i]; [lia|].
    intros [Hj ->]%lookup_zrow_inv [_ ->]%lookup_zrow_inv.
    pose proof (table_step_row (c_str s1) (c_str s2) i j). lia.
Qed.

Lemma rows_after_neighbours_witness :
  ∃ st : rows, rows_after (bytes "flaw") (bytes "lawn") 2 = Some st.
Proof.
  destruct (rows_after_neighbours (bytes "flaw") (bytes "lawn") 2)
    as (st & Hst & _).
  - unfold fits_int, INT_MAX; simpl; lia.
  - unfold fits_int, INT_MAX; simpl; lia.
  - simpl; lia.
  - exists st. exact Hst.
Defined.

(** X7: the length of the first string is held in an [int]. When that
    string has [INT_MAX] bytes, the length plus one wraps round to
    [INT_MIN], the outer loop does not run at all, and the function returns
    the length of the second string, whatever the first one holds. *)
Theorem levenshtein_first_length_wraps (s1 s2 : list byte) :
  strlen s1 = INT_MAX → fits_int s2 → levenshtein s1 s2 = Some (strlen s2).
Proof.
  intros Hlen Hf2. unfold levenshtein. rewrite Hlen.
  change (int_wrap (INT_MAX + 1)) with INT_MIN.
  rewrite (init_rows_spec s1 s2) by done. bind_step.
  change (for_loop (Z.to_nat INT_MIN) 1 INT_MIN
            (outer_body s1 s2 (int_wrap (strlen s2 + 1)))
            (Rows (zrow s1 s2 0) (calloc (int_wrap (strlen s2 + 1)))))
    with (Some (Rows (zrow s1 s2 0) (calloc (int_wrap (strlen s2 + 1))))).
  bind_step. cbn [row_x]. rewrite n2_eq by done.
  replace (Z.of_nat (S (length (c_str s2))) - 1)
    with (Z.of_nat (length (c_str s2))) by lia.
  by rewrite read_nat, lookup_zrow, table_0, strlen_c_str.
Qed.

Lemma levenshtein_first_length_wraps_witness :
  levenshtein (replicate (Z.to_nat INT_MAX) "a"%byte) (bytes "lawn")
  = Some (strlen (bytes "lawn")).
Proof.
  apply levenshtein_first_length_wraps.
  - rewrite strlen_replicate by done. apply Z2Nat.id. unfold INT_MAX. lia.
  - unfold fits_int, INT_MAX; simpl; lia.
Defined.

(** X8: on two strings of the same length the result is at most the number
    of positions at which they differ. *)
Theorem levenshtein_le_hamming (a b : list byte) :
  nul_free a = true → nul_free b = true → fits_int a → fits_int b →
  length a = length b →
  ∃ d : Z, levenshtein a b = Some d ∧ d <= Z.of_nat (hamming a b).
Proof.
  intros Ha Hb Hfa Hfb Hlen. rewrite levenshtein_nul_free by done.
  eexists. split; [done|]. pose proof (lev_hamming a b Hlen). lia.
Qed.

Lemma levenshtein_le_hamming_witness :
  ∃ d : Z, levenshtein (bytes "flaw") (bytes "lawn") = Some d ∧
           d <= Z.of_nat (hamming (bytes "flaw") (bytes "lawn")).
Proof.
  apply levenshtein_le_hamming; try reflexivity;
    unfold fits_int, INT_MAX; simpl; lia.
Defined.

(** X9: reversing both strings does not change the result. *)
Theorem levenshtein_reverse (a b : list byte) :
  nul_free a = true → nul_free b = true → fits_int a → fits_int b →
  levenshtein (reverse a) (reverse b) = levenshtein a b.
Proof.
  intros Ha Hb Hfa Hfb. unfold fits_int in Hfa, Hfb.
  rewrite strlen_nul_free in Hfa, Hfb by done.
  rewrite !levenshtein_nul_free; try done; try (by apply nul_free_reverse);
    try (unfold fits_int;
         rewrite strlen_nul_free, ?length_reverse by (by apply nul_free_reverse);
         lia).
  - by rewrite lev_reverse.
  - unfold fits_int. rewrite strlen_nul_free by done. lia.
  - unfold fits_int. rewrite strlen_nul_free by done. lia.
Qed.

Lemma levenshtein_reverse_witness :
  levenshtein (reverse (bytes "flaw")) (reverse (bytes "lawn"))
  = levenshtein (bytes "flaw") (bytes "lawn").
Proof.
  apply levenshtein_reverse; try reflexivity;
    unfold fits_int, INT_MAX; simpl; lia.
Defined.

(** X10: the length of the second string sizes the two buffers. When that
    string has [INT_MAX] bytes, the size wraps round to [INT_MIN], the
    buffers have no cell, and the function goes outside them (undefined
    behaviour in C) whatever the first string is: it yields no value. *)
Theorem levenshtein_second_length_wraps (s1 s2 : list byte) :
  strlen s2 = INT_MAX → levenshtein s1 s2 = None.
Proof.
  intros Hlen. unfold levenshtein. rewrite Hlen.
  change (int_wrap (INT_MAX + 1)) with INT_MIN.
  change (init_rows INT_MIN) with (Some (Rows [] [])). bind_step.
  destruct (Z.to_nat (int_wrap (strlen s1 + 1))) as [|fuel];
    cbn [for_loop]; destruct (1 <? int_wrap (strlen s1 + 1));
    try reflexivity.
  unfold outer_body. cbn [row_x row_y].
  by destruct (char_at s1 (1 - 1)).
Qed.

Lemma levenshtein_second_length_wraps_witness :
  levenshtein (bytes "lawn") (replicate (Z.to_nat INT_MAX) "a"%byte) = None.
Proof.
  apply levenshtein_second_length_wraps.
  rewrite strlen_replicate by done. apply Z2Nat.id. unfold INT_MAX. lia.
Defined.

(** [subseqb] decides the subsequence relation. *)
Lemma subseqb_sublist (b : list byte) :
  ∀ a, subseqb a b = true ↔ a `sublist_of` b.
Proof.
  induction b as [|y b IH]; intros [|x a]; simpl.
  - split; [constructor|done].
  - split; [done|]. by intros ?%sublist_nil_r.
  - split; [intros _; apply sublist_nil_l|done].
  - rewrite sublist_cons_r. destruct (Byte.eqb x y) eqn:Heq.
    + apply Byte.byte_dec_bl in Heq as ->. rewrite IH. split.
      * intros Hab. right. eauto.
      * intros [Hab|(a' & [= <-] & Hab)]; [|done].
        etrans; [|exact Hab]. by apply sublist_cons.
    + apply Byte.eqb_false in Heq. rewrite IH. split; [auto|].
      intros [Hab|(a' & [= ? ?] & Hab)]; [done|congruence].
Qed.

Lemma lev_subseqb (b : list byte) :
  ∀ a, subseqb a b = true → lev a b = (length b - length a)%nat.
Proof.
  induction b as [|y b IH]; intros [|x a] Hab; try done.
  simpl in Hab. rewrite lev_cons.
  destruct (Byte.eqb x y) eqn:Heq.
  - apply Byte.byte_dec_bl in Heq as ->. rewrite decide_True by done.
    rewrite (IH a Hab). simpl. lia.
  - apply Byte.eqb_false in Heq. rewrite decide_False by done.
    pose proof (IH _ Hab) as Hl.
    pose proof (lev_length_diff (x :: a) b) as [Hd _].
    pose proof (lev_length_diff (x :: a) (y :: b)) as [_ Hd'].
    rewrite lev_cons, decide_False in Hd' by done.
    simpl in *. unfold min3 in *. lia.
Qed.

(** X11: when the first string is what remains of the second after deleting
    some of its bytes, the result is the number of bytes deleted. *)
Theorem levenshtein_subsequence (a b : list byte) :
  nul_free a = true → nul_free b = true → fits_int a → fits_int b →
  subseqb a b = true →
  levenshtein a b = Some (Z.of_nat (length b) - Z.of_nat (length a)).
Proof.
  intros Ha Hb Hfa Hfb Hab. rewrite levenshtein_nul_free by done.
  pose proof (lev_subseqb b a Hab) as Hl.
  pose proof (lev_length_diff a b). f_equal. lia.
Qed.

Lemma levenshtein_subsequence_witness :
  levenshtein (bytes "ktn") (bytes "kitten")
  = Some (Z.of_nat (length (bytes "kitten")) - Z.of_nat (length (bytes "ktn"))).
Proof.
  apply levenshtein_subsequence; try reflexivity;
    unfold fits_int, INT_MAX; simpl; lia.
Defined.
